(** * The zoo schema migration (create-tables) over a model of the
      schema builder and of the relational engine it drives.

    The migration file [data/migrations/20200727145911_create-tables.js]
    exports two functions: [up], a chain of four [createTable] calls whose
    callbacks describe the columns, and [down], a chain of four
    [dropTableIfExists] calls.  The callbacks are embedded as programs in a
    small state and exception monad over the table builder they receive:
    the builder records what is asked of it, and a call of a method that
    the object at hand does not have throws.  When the chain is awaited,
    every call is first compiled to its statement, which runs the
    callbacks, and the statements are then sent to the engine one after the
    other.

    The file has three parts: the definitions (the builder, the migration,
    the engine, and the predicates the statements use), the lemmas on them,
    and the properties of the migration. *)

From Stdlib Require Import ZArith NArith Ascii String.
From stdpp Require Import base option list strings gmap fin_maps.

Open Scope string_scope.

(** ** Definitions of tables, as the builder records them *)

Module Schema.

Inductive col_type :=
| Increments            (* auto-incrementing unsigned integer key *)
| Integer
| Varchar (len : N).

(** The column builder a call such as [tbl.integer("species_id")] returns.
    A column is nullable until [notNullable] says otherwise. *)
Record ColumnBuilder := mkColumn {
  cb_name : string;
  cb_type : col_type;
  cb_unsigned : bool;
  cb_nullable : bool
}.

(** The record a call to [tbl.foreign(column)] opens;  [references],
    [inTable], [onDelete] and [onUpdate] fill it in afterwards. *)
Record ForeignData := mkForeign {
  fd_column : string;
  fd_references : option string;
  fd_inTable : option string;
  fd_onDelete : option string;
  fd_onUpdate : option string
}.

Inductive AlterStatement :=
| AUnique (cols : list string)
| APrimary (cols : list string)
| AForeign (fd : ForeignData).

(** The table builder [tbl] handed to a [createTable] callback. *)
Record TableBuilder := mkBuilder {
  tb_columns : list ColumnBuilder;
  tb_alter : list AlterStatement
}.

#[global] Instance col_type_eq_dec : EqDecision col_type.
Proof. solve_decision. Defined.
#[global] Instance ColumnBuilder_eq_dec : EqDecision ColumnBuilder.
Proof. solve_decision. Defined.
#[global] Instance ForeignData_eq_dec : EqDecision ForeignData.
Proof. solve_decision. Defined.
#[global] Instance AlterStatement_eq_dec : EqDecision AlterStatement.
Proof. solve_decision. Defined.

(** A foreign key of a finished table definition. *)
Record foreign_key := mkFk {
  fk_column : string;
  fk_table : string;
  fk_references : string;
  fk_onDelete : option string;
  fk_onUpdate : option string
}.

Record table_def := mkDef {
  td_columns : list ColumnBuilder;
  td_primary : list string;
  td_uniques : list (list string);
  td_foreigns : list foreign_key
}.

#[global] Instance foreign_key_eq_dec : EqDecision foreign_key.
Proof. solve_decision. Defined.
#[global] Instance table_def_eq_dec : EqDecision table_def.
Proof. solve_decision. Defined.

End Schema.
Export Schema.

(** ** The table builder: state and exceptions over [TableBuilder] *)

Module Knex.

(** What the call of a method that the object does not have throws:
    [TypeError: (...).method is not a function]. *)
Inductive exception :=
| NotAFunction (method : string).

#[global] Instance exception_eq_dec : EqDecision exception.
Proof. solve_decision. Defined.

(** A piece of a callback: it returns or throws, and leaves the builder
    with what was recorded until then. *)
Definition Build (A : Type) : Type :=
  TableBuilder → (A + exception) * TableBuilder.

Definition ret {A} (a : A) : Build A := λ tb, (inl a, tb).
Definition throw {A} (e : exception) : Build A := λ tb, (inr e, tb).
Definition bind {A B} (m : Build A) (f : A → Build B) : Build B :=
  λ tb, match m tb with
        | (inl a, tb') => f a tb'
        | (inr e, tb') => (inr e, tb')
        end.

(** [m .> f] is the method chain [m.f()];  [m ;; k] is two statements of
    a callback body, one after the other. *)
Notation "m .> f" := (bind m f) (at level 50, left associativity).
Notation "m ;; k" := (bind m (λ _, k)) (at level 100, right associativity).

(** The object a chain has in hand.  It is a column builder when
    [ch_column] is set, and it has the methods of a foreign key
    ([onDelete], [onUpdate]) when [ch_foreign] is set: [tbl.foreign] returns
    such an object, and [references] puts these methods on the column
    builder it is called on.  Both fields are positions in the builder,
    which owns the column and the foreign-key record that later calls write
    into;  a position that a chain holds is always that of an entry of the
    builder.  [ch_pending] marks the object that [references(column)]
    returns when no table was named: it has [inTable] and nothing else,
    and [inTable] gives back the object described by the other two
    fields. *)
Record chain := mkChain {
  ch_column : option nat;
  ch_foreign : option nat;
  ch_pending : bool
}.

Definition push_column (c : ColumnBuilder) : Build chain :=
  λ tb, (inl (mkChain (Some (length (tb_columns tb))) None false),
          mkBuilder (tb_columns tb ++ [c]) (tb_alter tb)).

Definition push_alter (a : AlterStatement) : Build nat :=
  λ tb, (inl (length (tb_alter tb)),
          mkBuilder (tb_columns tb) (tb_alter tb ++ [a])).

(** A method of the column builder: an object that is no column builder
    does not have it. *)
Definition alter_column (method : string)
    (f : ColumnBuilder → ColumnBuilder) (ch : chain) : Build chain :=
  match ch_pending ch, ch_column ch with
  | false, Some i =>
      λ tb, (inl ch, mkBuilder (alter f i (tb_columns tb)) (tb_alter tb))
  | _, _ => throw (NotAFunction method)
  end.

Definition on_foreign (f : ForeignData → ForeignData) (a : AlterStatement)
  : AlterStatement :=
  match a with
  | AForeign fd => AForeign (f fd)
  | _ => a
  end.

Definition write_foreign (f : ForeignData → ForeignData) (j : nat)
    (tb : TableBuilder) : TableBuilder :=
  mkBuilder (tb_columns tb) (alter (on_foreign f) j (tb_alter tb)).

(** A method of a foreign key: it writes into the record of the chain.
    An object without such a record, like a column builder on which
    [references] was not called, does not have the method. *)
Definition alter_foreign (method : string)
    (f : ForeignData → ForeignData) (ch : chain) : Build chain :=
  match ch_pending ch, ch_foreign ch with
  | false, Some j => λ tb, (inl ch, write_foreign f j tb)
  | _, _ => throw (NotAFunction method)
  end.

Definition column_name (ch : chain) (tb : TableBuilder) : string :=
  match ch_column ch ≫= λ i, tb_columns tb !! i with
  | Some c => cb_name c
  | None => ""
  end.

(** *** Column constructors of [tbl] *)

(** [tbl.increments()]: the column is called [id] when no name is given. *)
Definition increments : Build chain :=
  push_column (mkColumn "id" Increments true false).

(** [tbl.string(name, length)];  the name [string] is the type of strings
    here, hence the underscore. *)
Definition string_ (name : string) (len : N) : Build chain :=
  push_column (mkColumn name (Varchar len) false true).

Definition integer (name : string) : Build chain :=
  push_column (mkColumn name Integer false true).

(** *** Chain methods of a column *)

Definition unsigned : chain → Build chain :=
  alter_column "unsigned"
    (λ c, mkColumn (cb_name c) (cb_type c) true (cb_nullable c)).

Definition notNullable : chain → Build chain :=
  alter_column "notNullable"
    (λ c, mkColumn (cb_name c) (cb_type c) (cb_unsigned c) false).

(** [unique()] on a column is [tbl.unique(name)], except on an
    [increments] column, which is a key already. *)
Definition unique (ch : chain) : Build chain :=
  match ch_pending ch, ch_column ch with
  | false, Some i =>
      λ tb, match tb_columns tb !! i with
            | Some c =>
                match cb_type c with
                | Increments => (inl ch, tb)
                | _ => (push_alter (AUnique [cb_name c]) ;; ret ch) tb
                end
            | None => (inl ch, tb)
            end
  | _, _ => throw (NotAFunction "unique")
  end.

(** [String.prototype.split] on one separating character. *)
Fixpoint split (sep : ascii) (s : string) : list string :=
  match s with
  | EmptyString => [EmptyString]
  | String c s' =>
      if Ascii.eqb c sep then EmptyString :: split sep s'
      else match split sep s' with
           | p :: ps => String c p :: ps
           | [] => [String c EmptyString]
           end
  end.

(** [references(tableColumn)]: ["table.column"] names both, a bare
    ["column"] leaves the table to [inTable]. *)
Definition set_references (tableColumn : string) (fd : ForeignData)
  : ForeignData :=
  match split "." tableColumn with
  | [p] => mkForeign (fd_column fd) (Some p) (fd_inTable fd)
                     (fd_onDelete fd) (fd_onUpdate fd)
  | p0 :: p1 :: _ => mkForeign (fd_column fd) (Some p1) (Some p0)
                               (fd_onDelete fd) (fd_onUpdate fd)
  | [] => fd
  end.

Definition names_table (tableColumn : string) : bool :=
  match split "." tableColumn with
  | _ :: _ :: _ => true
  | _ => false
  end.

(** [tbl.foreign(column)] opens a foreign-key record on the table;  the
    object it returns has the methods of a foreign key and is no column
    builder. *)
Definition foreign (column : string) : Build chain :=
  push_alter (AForeign (mkForeign column None None None None))
    .> λ j, ret (mkChain None (Some j) false).

(** The write of [references] into record [j].  With a table named the
    chain goes on with the object that has the methods of the foreign key,
    and otherwise with the object that only has [inTable]. *)
Definition write_references (tableColumn : string) (ch : chain) (j : nat)
  : Build chain :=
  λ tb, (inl (mkChain (ch_column ch) (Some j)
                      (negb (names_table tableColumn))),
          write_foreign (set_references tableColumn) j tb).

(** [references] on a column builder opens the record for that column
    first, and from then on the column builder has the methods of the
    foreign key;  on an object that has them already, the record is
    open. *)
Definition references (tableColumn : string) (ch : chain) : Build chain :=
  match ch_pending ch, ch_foreign ch, ch_column ch with
  | false, Some j, _ => write_references tableColumn ch j
  | false, None, Some _ =>
      λ tb, (push_alter (AForeign (mkForeign (column_name ch tb)
                                             None None None None))
               .> write_references tableColumn ch) tb
  | _, _, _ => throw (NotAFunction "references")
  end.

(** [inTable] is the one method of the object that [references(column)]
    returns. *)
Definition inTable (tableName : string) (ch : chain) : Build chain :=
  match ch_pending ch, ch_foreign ch with
  | true, Some j =>
      λ tb, (inl (mkChain (ch_column ch) (Some j) false),
              write_foreign (λ fd, mkForeign (fd_column fd) (fd_references fd)
                                             (Some tableName)
                                             (fd_onDelete fd) (fd_onUpdate fd))
                            j tb)
  | _, _ => throw (NotAFunction "inTable")
  end.

(** [onDelete] and [onUpdate] are methods of a foreign key. *)
Definition onDelete (statement : string) : chain → Build chain :=
  alter_foreign "onDelete"
    (λ fd, mkForeign (fd_column fd) (fd_references fd) (fd_inTable fd)
                     (Some statement) (fd_onUpdate fd)).

Definition onUpdate (statement : string) : chain → Build chain :=
  alter_foreign "onUpdate"
    (λ fd, mkForeign (fd_column fd) (fd_references fd) (fd_inTable fd)
                     (fd_onDelete fd) (Some statement)).

(** [tbl.primary(columns)]. *)
Definition primary (cols : list string) : Build unit :=
  push_alter (APrimary cols) ;; ret tt.

(** *** From the builder to the definition of the table *)

Definition empty_builder : TableBuilder := mkBuilder [] [].

(** A foreign-key record yields a constraint once both the table and the
    column it points to are known. *)
Definition compile_foreign (a : AlterStatement) : option foreign_key :=
  match a with
  | AForeign fd =>
      match fd_inTable fd, fd_references fd with
      | Some t, Some c =>
          Some (mkFk (fd_column fd) t c (fd_onDelete fd) (fd_onUpdate fd))
      | _, _ => None
      end
  | _ => None
  end.

Definition compile_unique (a : AlterStatement) : option (list string) :=
  match a with AUnique cols => Some cols | _ => None end.

Definition compile_primary (a : AlterStatement) : option (list string) :=
  match a with APrimary cols => Some cols | _ => None end.

Definition is_increments (c : ColumnBuilder) : bool :=
  match cb_type c with Increments => true | _ => false end.

(** The key of the table: the columns given to [tbl.primary], and
    otherwise the [increments] column. *)
Definition compile_key (tb : TableBuilder) : list string :=
  match omap compile_primary (tb_alter tb) with
  | cols :: _ => cols
  | [] => cb_name <$> filter (λ c, is_increments c = true) (tb_columns tb)
  end.

Definition compile (tb : TableBuilder) : table_def :=
  mkDef (tb_columns tb)
        (compile_key tb)
        (omap compile_unique (tb_alter tb))
        (omap compile_foreign (tb_alter tb)).

(** The builder a callback leaves behind, whether it returns or throws. *)
Definition built (fn : Build unit) : TableBuilder := (fn empty_builder).2.

(** The callback is run on a new builder;  the table is defined when the
    callback returns. *)
Definition define (fn : Build unit) : table_def + exception :=
  match fn empty_builder with
  | (inl _, tb) => inl (compile tb)
  | (inr e, _) => inr e
  end.

(** *** The schema builder: [knex.schema] and its chain of calls *)

Inductive schema_call :=
| createTable (tableName : string) (fn : Build unit)
| dropTableIfExists (tableName : string).

End Knex.
Export Knex.

(** ** The migration *)

Module Migration.

(** The callback of [createTable("zoos", ...)]. *)
Definition zoos_fn : Build unit :=
  increments ;;
  string_ "zoo_name" 255 .> notNullable ;;
  string_ "address" 255 .> notNullable .> unique ;;
  ret tt.

Definition species_fn : Build unit :=
  increments ;;
  string_ "species_name" 255 .> notNullable .> unique ;;
  ret tt.

Definition animals_fn : Build unit :=
  increments ;;
  string_ "animal_name" 255 .> notNullable ;;
  integer "species_id"
    .> unsigned
    .> notNullable
    .> references "species.id"
    .> onDelete "CASCADE"
    .> onUpdate "CASCADE" ;;
  ret tt.

Definition zoo_animals_fn : Build unit :=
  integer "zoo_id"
    .> unsigned
    .> notNullable
    .> references "id"
    .> inTable "zoos"
    .> onDelete "CASCADE"
    .> onUpdate "CASCADE" ;;
  integer "animal_id"
    .> unsigned
    .> notNullable
    .> onDelete "CASCADE"
    .> onUpdate "CASCADE" ;;
  foreign "animal_id" .> references "animals.id" ;;
  primary ["zoo_id"; "animal_id"] ;;
  ret tt.

Definition up : list schema_call :=
  [ createTable "zoos" zoos_fn;
    createTable "species" species_fn;
    createTable "animals" animals_fn;
    createTable "zoo_animals" zoo_animals_fn ].

Definition down : list schema_call :=
  [ dropTableIfExists "zoo_animals";
    dropTableIfExists "animals";
    dropTableIfExists "species";
    dropTableIfExists "zoos" ].

End Migration.
Export Migration.

(** ** The relational engine

    The migration only issues schema calls.  What the statements of these
    calls do belongs to the database, which is not part of the repository
    and is modelled as the specification describes it: an engine that
    enforces its constraints, where a table is created only once and only
    after the tables it refers to, and a table that is still referred to is
    not dropped.  A statement that fails leaves the database as it was. *)

Module Engine.

Inductive value :=
| VInt (z : Z)
| VStr (s : string).

#[global] Instance value_eq_dec : EqDecision value.
Proof. solve_decision. Defined.

(** A row maps column names to values;  a column the row does not
    mention holds NULL. *)
Abbreviation row := (gmap string value).

(** A stored table: its definition, its rows in insertion order, and the
    last value the auto-increment counter handed out. *)
Record table := mkTable {
  tbl_def : table_def;
  tbl_rows : list row;
  tbl_seq : Z
}.

Abbreviation db := (gmap string table).

Inductive violation :=
| StillReferenced (t : string).

(** How a run of a schema chain fails: with an error of the database, or
    with what a callback threw while the chain was compiled. *)
Inductive SchemaError :=
| AlreadyExists (t : string)
| MissingDependency (t ref : string)
| ConstraintViolation (v : violation)
| Thrown (e : exception).

Inductive result (A : Type) :=
| Ok (a : A)
| Err (e : SchemaError).
Arguments Ok {A} a.
Arguments Err {A} e.

Definition and_then {A B} (r : result A) (f : A → result B) : result B :=
  match r with
  | Ok a => f a
  | Err e => Err e
  end.

(** *** From the calls to the statements *)

(** The statements that reach the database. *)
Inductive statement :=
| CreateTable (n : string) (d : table_def)
| DropTableIfExists (n : string).

(** Compiling a [createTable] call runs its callback. *)
Definition to_statement (c : schema_call) : result statement :=
  match c with
  | createTable n fn =>
      match define fn with
      | inl d => Ok (CreateTable n d)
      | inr e => Err (Thrown e)
      end
  | dropTableIfExists n => Ok (DropTableIfExists n)
  end.

(** The whole chain is compiled, call after call, before anything is
    sent. *)
Fixpoint toSQL (cs : list schema_call) : result (list statement) :=
  match cs with
  | [] => Ok []
  | c :: cs' =>
      and_then (to_statement c) (λ q,
      and_then (toSQL cs') (λ qs, Ok (q :: qs)))
  end.

(** *** Data definition *)

Definition new_table (d : table_def) : table := mkTable d [] 0.

(** Modelled from the spec: the [CREATE TABLE] of the database, which the
    repository does not contain.  The name must be free ([AlreadyExists],
    section 7), and every table a foreign key names must exist already or
    be the table itself ([MissingDependency], section 7). *)
Definition create_table (n : string) (d : table_def) (s : db) : result db :=
  match s !! n with
  | Some _ => Err (AlreadyExists n)
  | None =>
      match List.find (λ fk, bool_decide (fk_table fk ≠ n ∧
                                          s !! fk_table fk = None))
                      (td_foreigns d) with
      | Some fk => Err (MissingDependency n (fk_table fk))
      | None => Ok (<[n := new_table d]> s)
      end
  end.

Definition points_to (n : string) (d : table_def) : Prop :=
  Exists (λ fk, fk_table fk = n) (td_foreigns d).

(** Some other table of [s] still has a foreign key into [n]. *)
Definition referenced (n : string) (s : db) : Prop :=
  map_Exists (λ u t, u ≠ n ∧ points_to n (tbl_def t)) s.

#[global] Instance points_to_dec n d : Decision (points_to n d).
Proof. unfold points_to. apply _. Defined.
#[global] Instance referenced_dec n s : Decision (referenced n s).
Proof. unfold referenced. apply _. Defined.

(** Modelled from the spec: the [DROP TABLE IF EXISTS] of the database,
    which the repository does not contain.  There is nothing to do when the
    table is absent (section 4.1);  a table that another table still
    references is not dropped ([ConstraintViolation], sections 4.1
    and 7). *)
Definition drop_table_if_exists (n : string) (s : db) : result db :=
  match s !! n with
  | None => Ok s
  | Some _ =>
      if decide (referenced n s)
      then Err (ConstraintViolation (StillReferenced n))
      else Ok (delete n s)
  end.

(** The table a statement is about. *)
Definition subject (q : statement) : string :=
  match q with
  | CreateTable n _ => n
  | DropTableIfExists n => n
  end.

Definition exec (q : statement) (s : db) : result db :=
  match q with
  | CreateTable n d => create_table n d s
  | DropTableIfExists n => drop_table_if_exists n s
  end.

(** Modelled from the spec: how the database runs the statements it is
    sent.  They run one after the other (section 5);  the first one that
    fails ends the run, and what the earlier ones did stays (section 7). *)
Fixpoint execute (qs : list statement) (s : db) : db * option SchemaError :=
  match qs with
  | [] => (s, None)
  | q :: qs' =>
      match exec q s with
      | Ok s' => execute qs' s'
      | Err e => (s, Some e)
      end
  end.

(** Awaiting a schema chain: the chain is compiled, and when no callback
    threw its statements are executed.  A callback that throws ends the
    run before any statement is sent. *)
Definition run (cs : list schema_call) (s : db) : db * option SchemaError :=
  match toSQL cs with
  | Ok qs => execute qs s
  | Err e => (s, Some e)
  end.

End Engine.
Export Engine.

(** ** The tables of the migration and the states around it *)

Definition the_tables : list string :=
  ["zoos"; "species"; "animals"; "zoo_animals"].

(** The tables a chain is to create, in call order, each with the
    definition that its callback has recorded when it returns or throws. *)
Definition created (cs : list schema_call) : list (string * table_def) :=
  omap (λ c, match c with
             | createTable n fn => Some (n, compile (built fn))
             | dropTableIfExists _ => None
             end) cs.

(** The tables a chain drops, in call order. *)
Definition dropped (cs : list schema_call) : list string :=
  omap (λ c, match c with
             | dropTableIfExists n => Some n
             | createTable _ _ => None
             end) cs.

(** The definitions that the callbacks of [zoos], [species] and [animals]
    leave in their builders. *)
Definition zoos_def : table_def :=
  mkDef [ mkColumn "id" Increments true false;
          mkColumn "zoo_name" (Varchar 255) false false;
          mkColumn "address" (Varchar 255) false false ]
        ["id"] [["address"]] [].

Definition species_def : table_def :=
  mkDef [ mkColumn "id" Increments true false;
          mkColumn "species_name" (Varchar 255) false false ]
        ["id"] [["species_name"]] [].

Definition animals_def : table_def :=
  mkDef [ mkColumn "id" Increments true false;
          mkColumn "animal_name" (Varchar 255) false false;
          mkColumn "species_id" Integer true false ]
        ["id"] []
        [ mkFk "species_id" "species" "id" (Some "CASCADE") (Some "CASCADE") ].

(** What the callback of [zoo_animals] has recorded when it throws: the
    two columns, and the foreign key of [zoo_id]. *)
Definition zoo_animals_thrown : TableBuilder :=
  mkBuilder [ mkColumn "zoo_id" Integer true false;
              mkColumn "animal_id" Integer true false ]
            [ AForeign (mkForeign "zoo_id" (Some "id") (Some "zoos")
                                  (Some "CASCADE") (Some "CASCADE")) ].

(** The statements of the first three calls of [up]. *)
Definition first_three : list (string * table_def) :=
  [ ("zoos", zoos_def); ("species", species_def); ("animals", animals_def) ].

Definition create : string * table_def → statement :=
  λ p, CreateTable p.1 p.2.

(** Referential closure: every foreign key of the database names a table
    of the database.  [create_table] and [drop_table_if_exists] keep it. *)
Definition db_wf (s : db) : Prop :=
  map_Forall (λ _ t, Forall (λ fk, is_Some (s !! fk_table fk))
                            (td_foreigns (tbl_def t))) s.

(** Every foreign key into one of the tables [ns] sits in that table
    itself or in a table that comes earlier in [ns]. *)
Definition drops_in_order (ns : list string) (s : db) : Prop :=
  ∀ u t fk, s !! u = Some t → fk ∈ td_foreigns (tbl_def t) →
            fk_table fk ∈ ns → u ≠ fk_table fk →
            ∃ i j, ns !! i = Some u ∧ ns !! j = Some (fk_table fk) ∧ i < j.

Definition drop_safe (s : db) : Prop := drops_in_order (dropped down) s.

Definition target (c : schema_call) : string :=
  match c with
  | createTable n _ => n
  | dropTableIfExists n => n
  end.

(** The error [up] ends with. *)
Definition up_error : SchemaError := Thrown (NotAFunction "onDelete").

(** ** Databases used as examples *)

(** A table from outside the migration that refers to [zoos]. *)
Definition visits_fn : Build unit :=
  increments ;;
  integer "zoo_id" .> unsigned .> notNullable .> references "zoos.id" ;;
  ret tt.

(** [zoos], [species] and [animals] as the calls of [up] for them create
    them, with the outside table added. *)
Definition with_visits : db :=
  (run (take 3 up ++ [createTable "visits" visits_fn])%list ∅).1.

Definition with_rows (n : string) (rows : list row) (seq : Z) (s : db) : db :=
  alter (λ t, mkTable (tbl_def t) rows seq) n s.

(** A zoo and a visit to it, in the database with the outside table. *)
Definition visits_db : db :=
  with_rows "visits" [ {[ "id" := VInt 1; "zoo_id" := VInt 1 ]} ] 1
    (with_rows "zoos"
       [ {[ "id" := VInt 1; "zoo_name" := VStr "Metro Zoo";
            "address" := VStr "1 Zoo Way, Springfield" ]} ] 1
       with_visits).

(** ** Lemmas on compiling a chain *)

Lemma toSQL_cons_inv c cs qs :
  toSQL (c :: cs) = Ok qs →
  ∃ q qs', to_statement c = Ok q ∧ toSQL cs = Ok qs' ∧ qs = q :: qs'.
Proof.
  simpl. destruct (to_statement c) as [q|e]; [|done]. simpl.
  destruct (toSQL cs) as [qs'|e]; [|done]. simpl. intros [= <-]. eauto.
Qed.

Lemma to_statement_subject c q : to_statement c = Ok q → subject q = target c.
Proof.
  destruct c as [n fn|n]; simpl.
  - destruct (define fn); [|done]. by intros [= <-].
  - by intros [= <-].
Qed.

Lemma toSQL_subject cs qs :
  toSQL cs = Ok qs → subject <$> qs = target <$> cs.
Proof.
  revert qs. induction cs as [|c cs IH]; intros qs.
  - by intros [= <-].
  - intros (q & qs' & Hq & Hqs & ->)%toSQL_cons_inv.
    rewrite !fmap_cons. f_equal; [by apply to_statement_subject|by apply IH].
Qed.

Lemma toSQL_drops ns :
  toSQL (dropTableIfExists <$> ns) = Ok (DropTableIfExists <$> ns).
Proof.
  induction ns as [|n ns IH]; [done|].
  rewrite !fmap_cons. cbn [toSQL to_statement and_then]. by rewrite IH.
Qed.

Lemma run_drops_execute ns s :
  run (dropTableIfExists <$> ns) s = execute (DropTableIfExists <$> ns) s.
Proof. unfold run. by rewrite toSQL_drops. Qed.

(** [up] throws while it is compiled: nothing is sent. *)
Lemma run_up s : run up s = (s, Some up_error).
Proof. reflexivity. Qed.

(** A chain cut before the call for [zoo_animals] compiles;  one that
    holds this call throws. *)
Lemma run_take_up k s :
  run (take k up) s =
    if decide (k ≤ 3)%nat then execute (create <$> take k first_three) s
    else (s, Some up_error).
Proof. do 4 (destruct k as [|k]; [reflexivity|]). reflexivity. Qed.

Lemma created_take_up k :
  (k ≤ 3)%nat → created (take k up) = take k first_three.
Proof. intros Hk. do 4 (destruct k as [|k]; [reflexivity|]). lia. Qed.

(** ** Lemmas on the statements *)

Lemma create_table_exists n d s t :
  s !! n = Some t → create_table n d s = Err (AlreadyExists n).
Proof. intros H. unfold create_table. by rewrite H. Qed.

Lemma create_table_ok n d s :
  s !! n = None →
  Forall (λ fk, fk_table fk = n ∨ is_Some (s !! fk_table fk)) (td_foreigns d) →
  create_table n d s = Ok (<[n := new_table d]> s).
Proof.
  intros Hn Hfk. unfold create_table. rewrite Hn.
  destruct (List.find _ _) as [fk|] eqn:Hfind; [|done].
  apply List.find_some in Hfind as [Hin Hb].
  apply bool_decide_eq_true in Hb as [Hne Hnone].
  rewrite Forall_forall in Hfk.
  apply list_elem_of_In, Hfk in Hin as [?|[? ?]]; congruence.
Qed.

Lemma create_table_inv n d s s' :
  create_table n d s = Ok s' → s !! n = None ∧ s' = <[n := new_table d]> s.
Proof.
  unfold create_table. destruct (s !! n); [done|].
  destruct (List.find _ _); [done|]. by intros [= <-].
Qed.

Lemma drop_absent n s : s !! n = None → drop_table_if_exists n s = Ok s.
Proof. intros H. unfold drop_table_if_exists. by rewrite H. Qed.

Lemma drop_unreferenced n s :
  ¬ referenced n s → drop_table_if_exists n s = Ok (delete n s).
Proof.
  intros H. unfold drop_table_if_exists.
  destruct (s !! n) eqn:Hn.
  - by rewrite decide_False.
  - by rewrite delete_id.
Qed.

Lemma drop_inv n s s' :
  drop_table_if_exists n s = Ok s' →
  s' = delete n s ∧ (s !! n = None ∨ ¬ referenced n s).
Proof.
  unfold drop_table_if_exists. destruct (s !! n) eqn:Hn.
  - case_decide; [done|]. intros [= <-]. split; [done|by right].
  - intros [= <-]. split; [by rewrite delete_id|by left].
Qed.


Lemma exec_frame q s s' n :
  exec q s = Ok s' → n ≠ subject q → s' !! n = s !! n.
Proof.
  destruct q as [m d|m]; simpl; intros H Hne.
  - apply create_table_inv in H as [_ ->]. by rewrite lookup_insert_ne.
  - apply drop_inv in H as [-> _]. by rewrite lookup_delete_ne.
Qed.

Lemma execute_frame qs s n :
  n ∉ subject <$> qs → (execute qs s).1 !! n = s !! n.
Proof.
  revert s. induction qs as [|q qs IH]; intros s Hn; [done|].
  simpl. rewrite fmap_cons, not_elem_of_cons in Hn. destruct Hn as [Hq Hqs].
  destruct (exec q s) as [s'|e] eqn:He; [|done].
  rewrite IH by done. by eapply exec_frame.
Qed.

Lemma run_frame cs s n :
  n ∉ target <$> cs → (run cs s).1 !! n = s !! n.
Proof.
  intros Hn. unfold run. destruct (toSQL cs) as [qs|e] eqn:Hqs; [|done].
  apply execute_frame. by rewrite (toSQL_subject _ _ Hqs).
Qed.

Lemma execute_create_cons m d (l : list (string * table_def)) s :
  execute (create <$> (m, d) :: l) s =
    match create_table m d s with
    | Ok s' => execute (create <$> l) s'
    | Err e => (s, Some e)
    end.
Proof. reflexivity. Qed.

Lemma execute_drop_cons m ns s :
  execute (DropTableIfExists <$> m :: ns) s =
    match drop_table_if_exists m s with
    | Ok s' => execute (DropTableIfExists <$> ns) s'
    | Err e => (s, Some e)
    end.
Proof. reflexivity. Qed.

(** A run of creations leaves each name as it was or, where the name was
    free, with a new and empty table. *)
Lemma execute_creates_effect (l : list (string * table_def)) s n :
  (execute (create <$> l) s).1 !! n = s !! n ∨
  (s !! n = None ∧ ∃ d, (n, d) ∈ l ∧
                        (execute (create <$> l) s).1 !! n = Some (new_table d)).
Proof.
  revert s. induction l as [|[m d0] l IH]; intros s; [by left|].
  rewrite execute_create_cons.
  destruct (create_table m d0 s) as [s'|e] eqn:He; [|by left].
  apply create_table_inv in He as [Hm ->].
  destruct (IH (<[m := new_table d0]> s)) as [Heq|(Hnone & d & Hin & Heq)].
  - destruct (decide (m = n)) as [->|Hne].
    + right. split; [done|]. exists d0. split; [left|].
      by rewrite Heq, lookup_insert_eq.
    + left. by rewrite Heq, lookup_insert_ne.
  - destruct (decide (m = n)) as [->|Hne].
    + by rewrite lookup_insert_eq in Hnone.
    + rewrite lookup_insert_ne in Hnone by done.
      right. split; [done|]. exists d. split; [by right|done].
Qed.

(** When all the creations succeed, each of their tables is there. *)
Lemma execute_creates_ok (l : list (string * table_def)) s n :
  (execute (create <$> l) s).2 = None → n ∈ l.*1 →
  is_Some ((execute (create <$> l) s).1 !! n).
Proof.
  revert s. induction l as [|[m d0] l IH]; intros s Hok Hn.
  { by apply elem_of_nil in Hn. }
  rewrite execute_create_cons in *. rewrite fmap_cons in Hn. simpl in Hn.
  destruct (create_table m d0 s) as [s'|e] eqn:He; [|done].
  apply create_table_inv in He as [Hm ->].
  apply elem_of_cons in Hn as [->|Hn]; [|by apply IH].
  destruct (execute_creates_effect l (<[m := new_table d0]> s) m)
    as [Heq|[Hnone _]].
  - rewrite Heq, lookup_insert_eq. eauto.
  - by rewrite lookup_insert_eq in Hnone.
Qed.

(** A run of drops leaves each name as it was or without a table. *)
Lemma execute_drops_effect ns s n :
  (execute (DropTableIfExists <$> ns) s).1 !! n = s !! n ∨
  (n ∈ ns ∧ (execute (DropTableIfExists <$> ns) s).1 !! n = None).
Proof.
  revert s. induction ns as [|m ns IH]; intros s; [by left|].
  rewrite execute_drop_cons.
  destruct (drop_table_if_exists m s) as [s'|e] eqn:He; [|by left].
  apply drop_inv in He as [-> _].
  destruct (IH (delete m s)) as [Heq|[Hin Heq]].
  - destruct (decide (m = n)) as [->|Hne].
    + right. split; [left|]. by rewrite Heq, lookup_delete_eq.
    + left. by rewrite Heq, lookup_delete_ne.
  - right. split; [by right|done].
Qed.

Lemma execute_drops_absent_stays ns s n :
  s !! n = None → (execute (DropTableIfExists <$> ns) s).1 !! n = None.
Proof.
  intros Hn. destruct (execute_drops_effect ns s n) as [Heq|[_ Heq]]; congruence.
Qed.

Lemma execute_create_exists n d qs s t :
  s !! n = Some t →
  execute (CreateTable n d :: qs) s = (s, Some (AlreadyExists n)).
Proof. intros H. simpl. by rewrite (create_table_exists _ _ _ _ H). Qed.

Lemma execute_create_ok n d qs s :
  s !! n = None →
  Forall (λ fk, fk_table fk = n ∨ is_Some (s !! fk_table fk)) (td_foreigns d) →
  execute (CreateTable n d :: qs) s = execute qs (<[n := new_table d]> s).
Proof. intros H Hfk. simpl. by rewrite create_table_ok. Qed.

(** Case analysis on a name known to be in a given list of names. *)
Ltac each_table H :=
  repeat (apply elem_of_cons in H as [->|H]); [..|by apply elem_of_nil in H].

(** One creation: the table exists, or it is created. *)
Ltac create_step H :=
  first
    [ erewrite execute_create_exists by (by simplify_map_eq)
    | rewrite execute_create_ok
        by (simplify_map_eq;
            first [exact H | repeat constructor; simplify_map_eq; eauto]) ].

Ltac show_creates :=
  cbn [take first_three fmap list_fmap]; unfold create; cbn [fst snd].

(** From any state, the first [k] creations stop at the first of their
    tables that is there already, and succeed when none is. *)
Lemma execute_creates_cases k s :
  (∃ n, n ∈ (take k first_three).*1 ∧ is_Some (s !! n) ∧
        (execute (create <$> take k first_three) s).2 = Some (AlreadyExists n))
  ∨ ((∀ n, n ∈ (take k first_three).*1 → s !! n = None) ∧
     (execute (create <$> take k first_three) s).2 = None).
Proof.
  destruct k as [|k].
  { right. split; [|done]. intros n Hn. by apply elem_of_nil in Hn. }
  destruct (s !! "zoos") as [tz|] eqn:Hz.
  { left. exists "zoos". split_and!; [by left|by rewrite Hz|].
    show_creates. by create_step Hz. }
  destruct k as [|k].
  { right. split; [intros n Hn; simpl in Hn; by each_table Hn|].
    show_creates. by create_step Hz. }
  destruct (s !! "species") as [ts|] eqn:Hs.
  { left. exists "species". split_and!; [right; by left|by rewrite Hs|].
    show_creates.
    create_step Hz. by create_step Hs. }
  destruct k as [|k].
  { right. split; [intros n Hn; simpl in Hn; by each_table Hn|].
    show_creates.
    create_step Hz. by create_step Hs. }
  replace (take (S (S (S k))) first_three) with first_three
    by (simpl; by rewrite take_nil).
  destruct (s !! "animals") as [ta|] eqn:Ha.
  { left. exists "animals". split_and!; [do 2 right; by left|by rewrite Ha|].
    show_creates.
    create_step Hz. create_step Hs. by create_step Ha. }
  right. split; [intros n Hn; simpl in Hn; by each_table Hn|].
  show_creates.
  create_step Hz. create_step Hs. by create_step Ha.
Qed.

(** *** Drops *)

Lemma referenced_inv n s :
  referenced n s →
  ∃ u t fk, s !! u = Some t ∧ u ≠ n ∧ fk ∈ td_foreigns (tbl_def t) ∧
            fk_table fk = n.
Proof.
  intros (u & t & Hu & Hne & Hp). apply Exists_exists in Hp as (fk & Hin & Hfk).
  by exists u, t, fk.
Qed.

Lemma referenced_intro n s u t fk :
  s !! u = Some t → u ≠ n → fk ∈ td_foreigns (tbl_def t) → fk_table fk = n →
  referenced n s.
Proof.
  intros Hu Hne Hin Hfk. exists u, t. split_and!; [done..|].
  apply Exists_exists. by exists fk.
Qed.

Lemma execute_drops ns s :
  NoDup ns → drops_in_order ns s →
  execute (DropTableIfExists <$> ns) s
  = (foldl (λ acc n, delete n acc) s ns, None).
Proof.
  intros Hnd. revert s. induction Hnd as [|r ns Hr Hnd IH]; intros s Hs; [done|].
  rewrite execute_drop_cons, drop_unreferenced.
  - apply IH. intros u t fk Hu Hin Hns Hne.
    apply lookup_delete_Some in Hu as [Hur Hu].
    destruct (Hs u t fk Hu Hin) as (i & j & Hi & Hj & Hij); [by right|done|].
    destruct i as [|i]; [simpl in Hi; congruence|].
    destruct j as [|j]; [lia|].
    exists i, j. simpl in *. split_and!; [done..|lia].
  - intros (u & t & fk & Hu & Hne & Hin & Hfk)%referenced_inv.
    destruct (Hs u t fk Hu Hin) as (i & j & Hi & Hj & Hij);
      [rewrite Hfk; by left|congruence|].
    destruct j as [|j]; [lia|]. simpl in Hj. rewrite Hfk in Hj.
    apply Hr. by eapply list_elem_of_lookup_2.
Qed.

Lemma lookup_foldl_delete (ns : list string) (s : db) n :
  foldl (λ acc m, delete m acc) s ns !! n =
    if decide (n ∈ ns) then None else s !! n.
Proof.
  revert s. induction ns as [|m ns IH]; intros s; cbn [foldl].
  - case_decide as H; [by apply elem_of_nil in H|done].
  - rewrite IH.
    destruct (decide (n ∈ ns)) as [Hin|Hin], (decide (n ∈ m :: ns)) as [Hin'|Hin'];
      try done.
    + exfalso. apply Hin'. by right.
    + apply elem_of_cons in Hin' as [->|?]; [|done]. apply lookup_delete_eq.
    + apply lookup_delete_ne. intros ->. apply Hin'. by left.
Qed.

(** When the drops all succeed, their tables are gone and the others are
    as they were. *)
Lemma execute_drops_lookup ns s n :
  (execute (DropTableIfExists <$> ns) s).2 = None →
  (execute (DropTableIfExists <$> ns) s).1 !! n =
    if decide (n ∈ ns) then None else s !! n.
Proof.
  revert s. induction ns as [|m ns IH]; intros s.
  { intros _. by rewrite decide_False by apply not_elem_of_nil. }
  rewrite execute_drop_cons.
  destruct (drop_table_if_exists m s) as [s'|e] eqn:He; [|done].
  apply drop_inv in He as [-> _]. intros Hok. rewrite (IH _ Hok).
  destruct (decide (n ∈ ns)) as [Hin|Hin], (decide (n ∈ m :: ns)) as [Hin'|Hin'];
    try done.
  - exfalso. apply Hin'. by right.
  - apply elem_of_cons in Hin' as [->|?]; [|done]. apply lookup_delete_eq.
  - apply lookup_delete_ne. intros ->. apply Hin'. by left.
Qed.


(** Running the drops again changes nothing and ends the same way. *)
Lemma execute_drops_again ns s :
  execute (DropTableIfExists <$> ns) (execute (DropTableIfExists <$> ns) s).1
  = execute (DropTableIfExists <$> ns) s.
Proof.
  revert s. induction ns as [|m ns IH]; intros s; [done|].
  rewrite (execute_drop_cons m ns s).
  destruct (drop_table_if_exists m s) as [s'|e] eqn:He.
  - assert ((execute (DropTableIfExists <$> ns) s').1 !! m = None) as Hm.
    { apply execute_drops_absent_stays.
      apply drop_inv in He as [-> _]. apply lookup_delete_eq. }
    rewrite execute_drop_cons, (drop_absent _ _ Hm). apply IH.
  - cbn [fst]. by rewrite execute_drop_cons, He.
Qed.

Lemma execute_drops_absent ns s :
  (∀ n, n ∈ ns → s !! n = None) →
  execute (DropTableIfExists <$> ns) s = (s, None).
Proof.
  induction ns as [|r ns IH]; intros H; [done|].
  rewrite execute_drop_cons, drop_absent by (apply H; by left).
  apply IH. intros n Hn. apply H. by right.
Qed.

Lemma down_is_drops : down = dropTableIfExists <$> dropped down.
Proof. reflexivity. Qed.

Lemma run_down s : run down s = execute (DropTableIfExists <$> dropped down) s.
Proof. rewrite down_is_drops at 1. apply run_drops_execute. Qed.

Lemma run_take_down k s :
  run (take k down) s
  = execute (DropTableIfExists <$> take k (dropped down)) s.
Proof.
  rewrite down_is_drops at 1. rewrite <- fmap_take. apply run_drops_execute.
Qed.

Lemma dropped_down_NoDup : NoDup (dropped down).
Proof. by apply (bool_decide_unpack _). Qed.

Lemma drops_in_order_insert ns n d s :
  drops_in_order ns s →
  (∀ fk, fk ∈ td_foreigns d → fk_table fk ∈ ns → n ≠ fk_table fk →
         ∃ i j, ns !! i = Some n ∧ ns !! j = Some (fk_table fk) ∧ i < j) →
  drops_in_order ns (<[n := new_table d]> s).
Proof.
  intros Hs Hd u t fk Hu Hin Hns Hne.
  apply lookup_insert_Some in Hu as [[<- <-]|[Hnu Hu]].
  - by apply Hd.
  - by eapply Hs.
Qed.

Lemma wf_fresh_drop_safe s :
  db_wf s → (∀ n, n ∈ the_tables → s !! n = None) → drop_safe s.
Proof.
  intros Hwf Hfresh u t fk Hu Hin Hns Hne.
  pose proof (map_Forall_lookup_1 _ _ _ _ Hwf Hu) as Hfks.
  rewrite Forall_forall in Hfks. destruct (Hfks fk Hin) as [t' Ht'].
  rewrite Hfresh in Ht'; [done|].
  change (dropped down) with ["zoo_animals"; "animals"; "species"; "zoos"] in Hns.
  each_table Hns; set_solver.
Qed.

(** What a foreign key of one of the definitions may point to, by position
    in the order of the drops. *)
Ltac fk_position Hin :=
  simpl in Hin; each_table Hin; simpl;
  first [ done
        | by (exists 0, 1; split_and!; [done..|lia])
        | by (exists 0, 2; split_and!; [done..|lia])
        | by (exists 0, 3; split_and!; [done..|lia])
        | by (exists 1, 2; split_and!; [done..|lia])
        | by (exists 1, 3; split_and!; [done..|lia])
        | by (exists 2, 3; split_and!; [done..|lia]) ].

Lemma execute_creates_drops_in_order ns (l : list (string * table_def)) s :
  drops_in_order ns s →
  (∀ n d fk, (n, d) ∈ l → fk ∈ td_foreigns d → fk_table fk ∈ ns →
             n ≠ fk_table fk →
             ∃ i j, ns !! i = Some n ∧ ns !! j = Some (fk_table fk) ∧ i < j) →
  drops_in_order ns (execute (create <$> l) s).1.
Proof.
  revert s. induction l as [|[m d0] l IH]; intros s Hs Hl; [done|].
  rewrite execute_create_cons.
  destruct (create_table m d0 s) as [s'|e] eqn:He; [|done].
  apply create_table_inv in He as [_ ->]. apply IH.
  - apply drops_in_order_insert; [done|]. intros fk. apply Hl. by left.
  - intros n d fk Hin. apply Hl. by right.
Qed.

Lemma partial_up_drop_safe s k :
  db_wf s → (∀ n, n ∈ the_tables → s !! n = None) →
  drop_safe (run (take k up) s).1.
Proof.
  intros Hwf Hfresh. pose proof (wf_fresh_drop_safe s Hwf Hfresh) as Hsafe.
  rewrite run_take_up. case_decide; [|done].
  apply execute_creates_drops_in_order; [done|].
  intros n d fk Hin%subseteq_take Hfk _ _.
  unfold first_three in Hin.
  repeat (apply elem_of_cons in Hin as [[= -> ->]|Hin]);
    [..|by apply elem_of_nil in Hin]; fk_position Hfk.
Qed.

Lemma down_safe s :
  drop_safe s →
  run down s = (foldl (λ acc n, delete n acc) s (dropped down), None).
Proof.
  intros Hs. rewrite run_down.
  apply execute_drops; [apply dropped_down_NoDup|done].
Qed.

Lemma db_wf_empty : db_wf ∅.
Proof. apply map_Forall_empty. Qed.

(** *** When the drops of [down] all succeed *)

Lemma execute_drops_ok_inv ns s :
  NoDup ns →
  (∀ u t fk, s !! u = Some t → fk ∈ td_foreigns (tbl_def t) →
             fk_table fk ∈ ns → is_Some (s !! fk_table fk)) →
  (execute (DropTableIfExists <$> ns) s).2 = None →
  drops_in_order ns s.
Proof.
  intros Hnd. revert s.
  induction Hnd as [|r ns Hr Hnd IH]; intros s Hclosed Hrun u t fk Hu Hfk Hin Hne.
  { by apply elem_of_nil in Hin. }
  rewrite execute_drop_cons in Hrun.
  destruct (drop_table_if_exists r s) as [s'|e] eqn:Hdrop; [|done].
  apply drop_inv in Hdrop as [-> Hdrop].
  assert (drops_in_order ns (delete r s)) as Htail.
  { apply IH; [|done]. intros v tv fkv Hv Hfkv Hinv.
    assert (fk_table fkv ≠ r) as Hnr by (intros Heq; apply Hr; by rewrite <- Heq).
    apply lookup_delete_Some in Hv as [Hvr Hv].
    rewrite lookup_delete_ne by done.
    eapply Hclosed; [done..|by right]. }
  apply elem_of_cons in Hin as [Heq|Hin].
  - exfalso. destruct Hdrop as [Hnone|Hnr].
    + destruct (Hclosed u t fk Hu Hfk) as [t' Ht']; [rewrite Heq; by left|].
      congruence.
    + apply Hnr. apply (referenced_intro _ _ u t fk); congruence.
  - destruct (decide (u = r)) as [->|Hur].
    + apply list_elem_of_lookup in Hin as [j Hj].
      exists 0, (S j). split_and!; [done..|lia].
    + destruct (Htail u t fk) as (i & j & Hi & Hj & Hij);
        [by rewrite lookup_delete_ne|done..|].
      exists (S i), (S j). split_and!; [done..|lia].
Qed.

Lemma down_ok_drop_safe s : db_wf s → (run down s).2 = None → drop_safe s.
Proof.
  intros Hwf Hrun. apply execute_drops_ok_inv.
  - apply dropped_down_NoDup.
  - intros u t fk Hu Hfk _.
    pose proof (map_Forall_lookup_1 _ _ _ _ Hwf Hu) as Hfks. simpl in Hfks.
    rewrite Forall_forall in Hfks. by apply Hfks.
  - by rewrite <- run_down.
Qed.

(** *** The names the chains are about *)

Lemma target_take_up k n : n ∈ target <$> take k up → n ∈ the_tables.
Proof. rewrite fmap_take. apply subseteq_take. Qed.

Lemma created_take_up_names k n :
  n ∈ (created (take k up)).*1 → n ∈ the_tables.
Proof.
  intros Hn. apply (target_take_up k).
  do 4 (destruct k as [|k]; [exact Hn|]).
  unfold up in *. cbn [take] in *. rewrite take_nil in *. exact Hn.
Qed.

(** *** What single statements of the callbacks record *)

Lemma alter_new {A} (f : A → A) (l : list A) (x : A) :
  alter f (length l) (l ++ [x])%list = (l ++ [f x])%list.
Proof. rewrite alter_app_r_alt by done. by rewrite Nat.sub_diag. Qed.

(** [tbl.foreign(column).references("table.column")] adds one foreign key,
    without any action, to those recorded before. *)
Lemma foreign_references_records column t c tb :
  split "." (t ++ "." ++ c) = [t; c] →
  td_foreigns (compile ((foreign column .> references (t ++ "." ++ c)) tb).2)
  = (td_foreigns (compile tb) ++ [mkFk column t c None None])%list.
Proof.
  intros Hsplit. unfold foreign, references, bind, push_alter, ret; simpl.
  unfold write_foreign, set_references; simpl.
  rewrite alter_new, omap_app. simpl. by rewrite Hsplit.
Qed.

(** ** The properties of the migration *)

(** C1, on the code.  The chain of [species_id] calls [onDelete] and
    [onUpdate] after [references], and its foreign key carries CASCADE for
    both.  The chain of [animal_id] calls [onDelete] on a column builder on
    which [references] was not called, and such an object does not have the
    method: on every builder, the chain returns up to [notNullable] and
    throws at [onDelete].  The callback of [zoo_animals] so throws, having
    recorded its two columns and the foreign key of [zoo_id] only.  The
    statement after it, which declares the foreign key of [animal_id],
    records no action.  Since the callbacks run before anything is sent,
    [up] fails on every database and leaves it as it was: none of the three
    foreign keys is ever in force. *)
Theorem animal_id_cascade_is_never_declared :
  define animals_fn = inl animals_def ∧
  td_foreigns animals_def
  = [mkFk "species_id" "species" "id" (Some "CASCADE") (Some "CASCADE")] ∧
  (∀ tb, ∃ ch tb',
     (integer "animal_id" .> unsigned .> notNullable) tb = (inl ch, tb') ∧
     onDelete "CASCADE" ch tb' = (inr (NotAFunction "onDelete"), tb')) ∧
  zoo_animals_fn empty_builder
  = (inr (NotAFunction "onDelete"), zoo_animals_thrown) ∧
  td_foreigns (compile zoo_animals_thrown)
  = [mkFk "zoo_id" "zoos" "id" (Some "CASCADE") (Some "CASCADE")] ∧
  (∀ tb, td_foreigns
           (compile ((foreign "animal_id" .> references "animals.id") tb).2)
         = (td_foreigns (compile tb)
            ++ [mkFk "animal_id" "animals" "id" None None])%list) ∧
  (∀ s, run up s = (s, Some (Thrown (NotAFunction "onDelete")))).
Proof.
  split_and!; try reflexivity.
  - intros tb. eexists _, _. split; reflexivity.
  - intros tb. by apply (foreign_references_records "animal_id" "animals" "id").
Qed.

(** C2, on the code.  The callback of [zoo_animals] throws before it
    reaches [tbl.primary]: the builder it leaves holds no key.  The call
    itself would make the pair of [zoo_id] and [animal_id] the key.  [up]
    fails on every database, and no table [zoo_animals] is created: where
    there was none before [up], there is none after it. *)
Theorem zoo_animals_is_never_created (s : db) :
  built zoo_animals_fn = zoo_animals_thrown ∧
  omap compile_primary (tb_alter zoo_animals_thrown) = [] ∧
  compile_key zoo_animals_thrown = [] ∧
  compile_key (primary ["zoo_id"; "animal_id"] zoo_animals_thrown).2
  = ["zoo_id"; "animal_id"] ∧
  (run up s).2 = Some up_error ∧
  (run up s).1 !! "zoo_animals" = s !! "zoo_animals".
Proof.
  split_and!; reflexivity.
Qed.

(** C3.  From every database in which none of [zoos], [species],
    [animals] and [zoo_animals] exists, [up] and then [down] give back
    exactly the database [up] started from, and none of the four tables is
    there.  [up] itself ends with an error and has created nothing.  When
    the database is referentially closed, the same is true of the chain of
    [up] cut after any number of calls: [down] drops what these calls
    created. *)
Theorem up_then_down_restores (s : db) :
  (∀ n, n ∈ the_tables → s !! n = None) →
  run down (run up s).1 = (s, None) ∧
  (∀ n, n ∈ the_tables → (run down (run up s).1).1 !! n = None) ∧
  (run up s).2 = Some up_error ∧
  (db_wf s → ∀ k, run down (run (take k up) s).1 = (s, None)).
Proof.
  intros Hfresh.
  assert (run down s = (s, None)) as Hdown.
  { rewrite run_down. apply execute_drops_absent. intros n Hn. apply Hfresh.
    change (dropped down) with ["zoo_animals"; "animals"; "species"; "zoos"] in Hn.
    each_table Hn; set_solver. }
  split_and!.
  - by rewrite run_up.
  - intros n Hn. rewrite run_up. cbn [fst]. rewrite Hdown. by apply Hfresh.
  - by rewrite run_up.
  - intros Hwf k. rewrite down_safe by by apply partial_up_drop_safe.
    f_equal. apply map_eq. intros n. rewrite lookup_foldl_delete.
    change (dropped down) with ["zoo_animals"; "animals"; "species"; "zoos"].
    case_decide as Hn.
    + symmetry. apply Hfresh. each_table Hn; set_solver.
    + apply run_frame. intros Hin%target_take_up. apply Hn.
      each_table Hin; set_solver.
Qed.

Lemma up_then_down_restores_witness :
  run down (run up ∅).1 = (∅, None) ∧
  (∀ n, n ∈ the_tables → (run down (run up ∅).1).1 !! n = None) ∧
  (run up ∅).2 = Some up_error ∧
  (db_wf ∅ → ∀ k, run down (run (take k up) ∅).1 = (∅, None)).
Proof.
  apply (up_then_down_restores ∅). intros n _. apply lookup_empty.
Defined.

(** C4.  [up] calls [createTable] for [zoos], [species], [animals] and
    [zoo_animals], in this order and one after the other: every foreign key
    that the callback of a table records names a table of an earlier call,
    each call finds the tables of the calls before it in the database, and
    no call of [up], nor of [up] cut after any number of calls, ever fails
    for a missing dependency.  The foreign key that the statement after
    the failing one of the last callback declares names [animals], a table
    of an earlier call too. *)
Theorem up_creates_referenced_tables_first :
  (created up).*1 = ["zoos"; "species"; "animals"; "zoo_animals"] ∧
  (∀ pre n d post fk,
     created up = (pre ++ (n, d) :: post)%list → fk ∈ td_foreigns d →
     fk_table fk ∈ pre.*1) ∧
  (∀ s k n,
     (run (take k up) s).2 = None → n ∈ (created (take k up)).*1 →
     is_Some ((run (take k up) s).1 !! n)) ∧
  (∀ s n r, (run up s).2 ≠ Some (MissingDependency n r)) ∧
  (∀ s k n r, (run (take k up) s).2 ≠ Some (MissingDependency n r)) ∧
  (∀ fk,
     fk ∈ td_foreigns
            (compile ((foreign "animal_id" .> references "animals.id")
                        zoo_animals_thrown).2) →
     fk_table fk ∈ ["zoos"; "species"; "animals"]).
Proof.
  assert (∀ s k n r, (run (take k up) s).2 ≠ Some (MissingDependency n r))
    as Hdeps.
  { intros s k n r. rewrite run_take_up. case_decide; [|done].
    destruct (execute_creates_cases k s) as [(m & _ & _ & ->)|[_ ->]]; done. }
  split_and!.
  - reflexivity.
  - intros pre n d post fk Hup Hfk.
    change (created up) with
      [("zoos", zoos_def); ("species", species_def);
       ("animals", animals_def); ("zoo_animals", compile zoo_animals_thrown)]
      in Hup.
    destruct pre as [|p0 [|p1 [|p2 [|p3 [|p4 pre]]]]]; simplify_eq/=.
    all: simpl in Hfk; each_table Hfk; simpl; set_solver.
  - intros s k n Hok Hn. rewrite run_take_up in *.
    case_decide as Hk; [|done].
    rewrite created_take_up in Hn by done. by apply execute_creates_ok.
  - intros s n r. by rewrite run_up.
  - exact Hdeps.
  - intros fk Hfk. simpl in Hfk. each_table Hfk; simpl; set_solver.
Qed.

Lemma up_creates_referenced_tables_first_witness :
  fk_table (mkFk "species_id" "species" "id" (Some "CASCADE") (Some "CASCADE"))
    ∈ [("zoos", zoos_def); ("species", species_def)].*1 ∧
  is_Some ((run (take 3 up) ∅).1 !! "species").
Proof.
  destruct up_creates_referenced_tables_first as (_ & Hfk & Hrun & _).
  split.
  - apply (Hfk [("zoos", zoos_def); ("species", species_def)] "animals"
               animals_def [("zoo_animals", compile zoo_animals_thrown)]).
    + reflexivity.
    + left.
  - apply (Hrun ∅ 3 "species").
    + reflexivity.
    + right. left.
Defined.

(** C5.  [down] consists of four [dropTableIfExists] calls, on
    [zoo_animals], [animals], [species] and [zoos] in this order, which is
    the order of the [createTable] calls of [up] reversed.  The drops are
    done in this order: whenever the first [k] calls of [down] succeed, the
    first [k] tables of this order are gone and every other table is as it
    was. *)
Theorem down_drops_in_reverse_order :
  dropped down = ["zoo_animals"; "animals"; "species"; "zoos"] ∧
  dropped down = reverse (created up).*1 ∧
  down = dropTableIfExists <$> dropped down ∧
  (∀ s k n,
     (run (take k down) s).2 = None →
     (run (take k down) s).1 !! n =
       if decide (n ∈ take k ["zoo_animals"; "animals"; "species"; "zoos"])
       then None else s !! n).
Proof.
  split_and!; try reflexivity.
  intros s k n. rewrite run_take_down. apply execute_drops_lookup.
Qed.

Lemma down_drops_in_reverse_order_witness :
  (run (take 2 down) (run (take 3 up) ∅).1).2 = None ∧
  (run (take 2 down) (run (take 3 up) ∅).1).1 !! "animals" = None ∧
  (run (take 2 down) (run (take 3 up) ∅).1).1 !! "species"
  = (run (take 3 up) ∅).1 !! "species" ∧
  is_Some ((run (take 3 up) ∅).1 !! "animals").
Proof.
  destruct down_drops_in_reverse_order as (_ & _ & _ & Hrun).
  assert ((run (take 2 down) (run (take 3 up) ∅).1).2 = None) as Hok
    by (vm_compute; reflexivity).
  split_and!.
  - exact Hok.
  - rewrite (Hrun _ 2 "animals" Hok). reflexivity.
  - rewrite (Hrun _ 2 "species" Hok). reflexivity.
  - vm_compute. eexists. reflexivity.
Defined.

(** C6, as the code has it.  Every drop of [down] tolerates that its table
    is not there.  From every database in which each foreign key into one of
    the four tables belongs to that table or to a table that [down] drops
    before it, [down] succeeds, leaves none of the four tables, and is a
    no-op when it is run again.  Such are the databases without any of the
    four tables, on which [down] changes nothing at all, and the databases
    that the first [k] calls of [up] leave when [up] started from a
    referentially closed database without the four tables.  On a
    referentially closed database [down] succeeds in no other case. *)
Theorem down_tolerates_absent_tables :
  (∀ s, drop_safe s →
        ∃ s', run down s = (s', None) ∧
              (∀ n, n ∈ the_tables → s' !! n = None) ∧
              run down s' = (s', None)) ∧
  (∀ s, (∀ n, n ∈ the_tables → s !! n = None) → run down s = (s, None)) ∧
  (∀ s k, db_wf s → (∀ n, n ∈ the_tables → s !! n = None) →
          drop_safe (run (take k up) s).1) ∧
  (∀ s, db_wf s → (run down s).2 = None → drop_safe s).
Proof.
  assert (∀ s, (∀ n, n ∈ the_tables → s !! n = None) → run down s = (s, None))
    as Habsent.
  { intros s Hs. rewrite run_down. apply execute_drops_absent.
    intros n Hn. apply Hs.
    change (dropped down) with ["zoo_animals"; "animals"; "species"; "zoos"] in Hn.
    each_table Hn; set_solver. }
  split_and!; [|done| |].
  - intros s Hs. eexists. split; [by apply down_safe|].
    assert (∀ n, n ∈ the_tables →
                 foldl (λ acc m, delete m acc) s (dropped down) !! n = None)
      as Hgone.
    { intros n Hn. rewrite lookup_foldl_delete. rewrite decide_True; [done|].
      each_table Hn; set_solver. }
    split; [done|]. by apply Habsent.
  - intros s k. apply partial_up_drop_safe.
  - apply down_ok_drop_safe.
Qed.

Lemma down_tolerates_absent_tables_witness :
  (∃ s', run down (run (take 2 up) ∅).1 = (s', None) ∧
         (∀ n, n ∈ the_tables → s' !! n = None) ∧
         run down s' = (s', None)) ∧
  run down ∅ = (∅, None).
Proof.
  destruct down_tolerates_absent_tables as (Hsafe & Habsent & Hpartial & _).
  split.
  - apply Hsafe. apply Hpartial.
    + apply db_wf_empty.
    + intros n _. apply lookup_empty.
  - apply Habsent. intros n _. apply lookup_empty.
Defined.

(** C6, as it is stated, fails: a database holds [zoos], [species] and
    [animals], a table [visits] with a foreign key into [zoos], a zoo and a
    visit to it.  There [down] drops [animals] and [species], and is then
    rejected at [zoos], which stays. *)
Lemma down_rejected_by_outside_reference :
  db_wf visits_db ∧
  (run down visits_db).2 = Some (ConstraintViolation (StillReferenced "zoos")) ∧
  is_Some ((run down visits_db).1 !! "zoos").
Proof.
  split_and!.
  - apply (bool_decide_unpack _). vm_compute. exact I.
  - vm_compute. reflexivity.
  - vm_compute. eexists. reflexivity.
Qed.

(** C7, on the code.  When one of the four tables exists already, [up]
    fails, but not with [AlreadyExists]: it fails as on every other
    database, with what the callback of [zoo_animals] throws, before any
    statement is sent.  The chain cut before that callback does what
    [createTable] is there for: when it holds the call for a table that
    exists, it ends with [AlreadyExists] for a table of its calls that was
    there. *)
Theorem up_throws_before_it_meets_a_table (s : db) (n : string) :
  n ∈ the_tables → is_Some (s !! n) →
  run up s = (s, Some (Thrown (NotAFunction "onDelete"))) ∧
  (∀ m, (run up s).2 ≠ Some (AlreadyExists m)) ∧
  (∀ k, (k ≤ 3)%nat → n ∈ (created (take k up)).*1 →
        ∃ m, m ∈ (created (take k up)).*1 ∧ is_Some (s !! m) ∧
             (run (take k up) s).2 = Some (AlreadyExists m)).
Proof.
  intros Hn Hsn. split_and!; [done|done|].
  intros k Hk Hin. rewrite run_take_up, decide_True by done.
  rewrite created_take_up in * by done.
  destruct (execute_creates_cases k s) as [(m & Hm & Hsm & He)|[Hnone _]].
  - by exists m.
  - rewrite (Hnone n Hin) in Hsn. by destruct Hsn.
Qed.

Lemma up_throws_before_it_meets_a_table_witness :
  run up (run (take 1 up) ∅).1
  = ((run (take 1 up) ∅).1, Some (Thrown (NotAFunction "onDelete"))) ∧
  ∃ m, m ∈ (created (take 2 up)).*1 ∧
       is_Some ((run (take 1 up) ∅).1 !! m) ∧
       (run (take 2 up) (run (take 1 up) ∅).1).2 = Some (AlreadyExists m).
Proof.
  destruct (up_throws_before_it_meets_a_table (run (take 1 up) ∅).1 "zoos")
    as (Hup & _ & Hcut).
  - left.
  - vm_compute. eexists. reflexivity.
  - split; [exact Hup|]. apply (Hcut 2); [lia|left].
Defined.

(** C8, on the code.  The callback of [zoos] records one unique
    constraint, on [address], and none on [zoo_name];  the callback of
    [species] records one on [species_name].  But [up] fails on every
    database before anything is sent: it creates neither [zoos] nor
    [species], and each of the two names holds after [up] what it held
    before. *)
Theorem zoos_and_species_are_never_created (s : db) :
  define zoos_fn = inl zoos_def ∧
  td_uniques zoos_def = [["address"]] ∧
  define species_fn = inl species_def ∧
  td_uniques species_def = [["species_name"]] ∧
  (run up s).2 = Some up_error ∧
  (run up s).1 !! "zoos" = s !! "zoos" ∧
  (run up s).1 !! "species" = s !! "species".
Proof. split_and!; reflexivity. Qed.

(** C9, on the code.  The callback of [animals] records [species_id] as
    an unsigned integer column that is not nullable, with a foreign key to
    [species.id].  But [up] fails on every database before anything is
    sent: it creates no table [animals], and the name holds after [up] what
    it held before. *)
Theorem animals_is_never_created (s : db) :
  define animals_fn = inl animals_def ∧
  mkColumn "species_id" Integer true false ∈ td_columns animals_def ∧
  (∀ fk, fk ∈ td_foreigns animals_def →
         fk_column fk = "species_id" ∧ fk_table fk = "species" ∧
         fk_references fk = "id") ∧
  (run up s).2 = Some up_error ∧
  (run up s).1 !! "animals" = s !! "animals".
Proof.
  split_and!; try reflexivity.
  - do 2 right. left.
  - intros fk Hfk. simpl in Hfk. by each_table Hfk.
Qed.

(** C10.  [up] and [down] leave every table outside the four as it is.
    [up] changes a name only by putting a new table without rows where
    there was none, and only at the four names;  [down] changes a name only
    by removing its table, and only at the four names.  The same is true
    of [up] cut after any number of calls. *)
Theorem migration_touches_only_its_tables (s : db) :
  (∀ n, n ∉ the_tables →
        (run up s).1 !! n = s !! n ∧ (run down s).1 !! n = s !! n) ∧
  (∀ n, (run up s).1 !! n = s !! n ∨
        (n ∈ the_tables ∧ s !! n = None ∧
         ∃ d, (run up s).1 !! n = Some (mkTable d [] 0))) ∧
  (∀ n, (run down s).1 !! n = s !! n ∨
        (n ∈ the_tables ∧ (run down s).1 !! n = None)) ∧
  (∀ k n, (run (take k up) s).1 !! n = s !! n ∨
          (n ∈ the_tables ∧ s !! n = None ∧
           ∃ d, (run (take k up) s).1 !! n = Some (mkTable d [] 0))).
Proof.
  assert (∀ k n, (run (take k up) s).1 !! n = s !! n ∨
                 (n ∈ the_tables ∧ s !! n = None ∧
                  ∃ d, (run (take k up) s).1 !! n = Some (mkTable d [] 0)))
    as Hcut.
  { intros k n. rewrite run_take_up. case_decide as Hk; [|by left].
    destruct (execute_creates_effect (take k first_three) s n)
      as [Heq|(Hnone & d & Hin & Heq)]; [by left|right].
    split_and!; [|done|by exists d].
    apply (created_take_up_names k). rewrite created_take_up by done.
    by apply (list_elem_of_fmap_2 fst) in Hin. }
  split_and!.
  - intros n Hn. split; apply run_frame.
    + exact Hn.
    + intros Hin. apply Hn. simpl in Hin. each_table Hin; set_solver.
  - intros n. apply (Hcut 4).
  - intros n. rewrite run_down.
    destruct (execute_drops_effect (dropped down) s n) as [Heq|[Hin Heq]];
      [by left|right].
    split; [|done].
    change (dropped down) with ["zoo_animals"; "animals"; "species"; "zoos"] in Hin.
    each_table Hin; set_solver.
  - exact Hcut.
Qed.

Lemma migration_touches_only_its_tables_witness :
  (run up visits_db).1 !! "visits" = visits_db !! "visits" ∧
  (run down visits_db).1 !! "visits" = visits_db !! "visits".
Proof.
  destruct (migration_touches_only_its_tables visits_db) as (Hout & _).
  apply (Hout "visits").
  by apply (bool_decide_unpack _).
Defined.

(** ** Further properties of [down] *)



(** X2.  Running [down] a second time changes nothing and ends as the
    first run did, whether that run succeeded or failed. *)
Theorem down_again_changes_nothing (s : db) :
  run down (run down s).1 = run down s.
Proof. rewrite !run_down. apply execute_drops_again. Qed.
